(** * Moho recursive attestation engine: a shallow embedding in Rocq

    Sources embedded here:
    - crates/types/src/ssz_merkle_utils.rs  (SszFieldMerkle: proof generation and verification)
    - crates/types/src/state.rs             (MohoState::new, compute_commitment, ExportState::add_entry)
    - crates/types/src/constants.rs         (MAX_* bounds)
    - crates/recursive-proof/src/transition.rs (Transition, chain, MohoTransitionWithProof::verify)
    - crates/recursive-proof/src/errors.rs     (MohoError, TransitionChainError)
    - crates/recursive-proof/src/statements.rs (process_recursive_moho_proof,
                                                verify_and_chain_transition)

    Bytes are [Z] values in [0, 256); a 32-byte array is a list of 32 of them. *)

From Stdlib Require Import ZArith List Bool Lia Sorted.
Import ListNotations.
Open Scope Z_scope.

Definition byte := Z.
Definition bytes := list byte.
(** A [[u8; 32]] value. *)
Definition bytes32 := list byte.

Definition zero_chunk : bytes32 := repeat 0 32.

Fixpoint bytes_eqb (a b : bytes) : bool :=
  match a, b with
  | [], [] => true
  | x :: a', y :: b' => Z.eqb x y && bytes_eqb a' b'
  | _, _ => false
  end.

(** ** SHA-256 (FIPS 180-4), the [sha2] crate's [Sha256] *)
Module Sha256.

Definition mask32 : Z := Z.ones 32.
Definition add32 (x y : Z) : Z := Z.land (x + y) mask32.
Definition rotr (n x : Z) : Z :=
  Z.land (Z.lor (Z.shiftr x n) (Z.shiftl x (32 - n))) mask32.

Definition ch (x y z : Z) : Z := Z.lxor (Z.land x y) (Z.land (Z.lxor x mask32) z).
Definition maj (x y z : Z) : Z := Z.lxor (Z.lxor (Z.land x y) (Z.land x z)) (Z.land y z).
Definition bsig0 (x : Z) : Z := Z.lxor (Z.lxor (rotr 2 x) (rotr 13 x)) (rotr 22 x).
Definition bsig1 (x : Z) : Z := Z.lxor (Z.lxor (rotr 6 x) (rotr 11 x)) (rotr 25 x).
Definition ssig0 (x : Z) : Z := Z.lxor (Z.lxor (rotr 7 x) (rotr 18 x)) (Z.shiftr x 3).
Definition ssig1 (x : Z) : Z := Z.lxor (Z.lxor (rotr 17 x) (rotr 19 x)) (Z.shiftr x 10).

(** Round constants (decimal). *)
Definition K : list Z := [
  1116352408; 1899447441; 3049323471; 3921009573; 961987163; 1508970993;
  2453635748; 2870763221; 3624381080; 310598401; 607225278; 1426881987;
  1925078388; 2162078206; 2614888103; 3248222580; 3835390401; 4022224774;
  264347078; 604807628; 770255983; 1249150122; 1555081692; 1996064986;
  2554220882; 2821834349; 2952996808; 3210313671; 3336571891; 3584528711;
  113926993; 338241895; 666307205; 773529912; 1294757372; 1396182291;
  1695183700; 1986661051; 2177026350; 2456956037; 2730485921; 2820302411;
  3259730800; 3345764771; 3516065817; 3600352804; 4094571909; 275423344;
  430227734; 506948616; 659060556; 883997877; 958139571; 1322822218;
  1537002063; 1747873779; 1955562222; 2024104815; 2227730452; 2361852424;
  2428436474; 2756734187; 3204031479; 3329325298 ].

(** Initial hash value (decimal). *)
Definition H0 : list Z := [
  1779033703; 3144134277; 1013904242; 2773480762; 1359893119; 2600822924;
  528734635; 1541459225 ].

(** Big-endian conversions between bytes and 32-bit words. *)
Fixpoint words_of_bytes (bs : bytes) : list Z :=
  match bs with
  | b0 :: b1 :: b2 :: b3 :: rest =>
      (b0 * 16777216 + b1 * 65536 + b2 * 256 + b3) :: words_of_bytes rest
  | _ => []
  end.

Definition bytes_of_word (w : Z) : bytes :=
  [ Z.land (Z.shiftr w 24) 255; Z.land (Z.shiftr w 16) 255;
    Z.land (Z.shiftr w 8) 255; Z.land w 255 ].

Definition bytes_of_words (ws : list Z) : bytes := flat_map bytes_of_word ws.

(** Message padding: [0x80], zeros, then the bit length as a 64-bit big-endian integer. *)
Definition pad (msg : bytes) : bytes :=
  let len := Z.of_nat (length msg) in
  let zeros := Z.to_nat ((55 - len) mod 64) in
  let bitlen := len * 8 in
  msg ++ [128] ++ repeat 0 zeros ++
      bytes_of_word (Z.shiftr bitlen 32) ++ bytes_of_word (Z.land bitlen mask32).

(** Message schedule: extend 16 words to 64, [w] holding the last 16 in reverse order. *)
Fixpoint schedule (n : nat) (w : list Z) : list Z :=
  match n with
  | O => w
  | S n' =>
      let nw := add32 (add32 (ssig1 (nth 1 w 0)) (nth 6 w 0))
                      (add32 (ssig0 (nth 14 w 0)) (nth 15 w 0)) in
      schedule n' (nw :: w)
  end.

Definition round (st : list Z) (kw : Z * Z) : list Z :=
  match st with
  | [a; b; c; d; e; f; g; h] =>
      let t1 := add32 (add32 (add32 h (bsig1 e)) (add32 (ch e f g) (fst kw))) (snd kw) in
      let t2 := add32 (bsig0 a) (maj a b c) in
      [add32 t1 t2; a; b; c; add32 d t1; e; f; g]
  | _ => st
  end.

Definition compress (hv : list Z) (block : list Z) : list Z :=
  let w := rev (schedule 48 (rev block)) in
  let st := fold_left round (combine K w) hv in
  map (fun p => add32 (fst p) (snd p)) (combine hv st).

Fixpoint blocks (fuel : nat) (ws : list Z) : list (list Z) :=
  match fuel with
  | O => []
  | S f =>
      match ws with
      | [] => []
      | _ => firstn 16 ws :: blocks f (skipn 16 ws)
      end
  end.

Definition hash (msg : bytes) : bytes32 :=
  let ws := words_of_bytes (pad msg) in
  bytes_of_words (fold_left compress (blocks (length ws) ws) H0).

End Sha256.

(** [SszFieldMerkle::hash_internal]: sha256(left || right). *)
Definition hash_internal (left right : bytes32) : bytes32 := Sha256.hash (left ++ right).

(** ** Field-inclusion proofs ([ssz_merkle_utils.rs]), over a node hash [H] *)

(** [SszLeafInclusionProof]: bottom-up siblings and the 0-based leaf index (a [u8]). *)
Record SszLeafInclusionProof := {
  branch : list bytes32;
  leaf_index : Z;
}.

Section Merkle.
Variable H : bytes32 -> bytes32 -> bytes32.

(** [SszFieldMerkle::verify_proof]. *)
Fixpoint fold_branch (cur : bytes32) (idx : Z) (sibs : list bytes32) : bytes32 :=
  match sibs with
  | [] => cur
  | sib :: rest =>
      let cur' := if Z.even idx then H cur sib else H sib cur in
      fold_branch cur' (idx / 2) rest
  end.

Definition verify_proof_with (root : bytes32) (proof : SszLeafInclusionProof)
    (leaf_value : bytes32) : bool :=
  bytes_eqb (fold_branch leaf_value (leaf_index proof) (branch proof)) root.

(** [compute_root_no_prefix] in [verify_and_chain_transition]: the same fold, written
    with [flags & 1 == 1] and [flags >>= 1]. *)
Fixpoint compute_root_no_prefix_go (cur : bytes32) (flags : Z) (cohashes : list bytes32)
    : bytes32 :=
  match cohashes with
  | [] => cur
  | co :: rest =>
      let cur' := if Z.eqb (Z.land flags 1) 1 then H co cur else H cur co in
      compute_root_no_prefix_go cur' (Z.shiftr flags 1) rest
  end.

Definition compute_root_no_prefix_with (proof : SszLeafInclusionProof) (leaf : bytes32)
    : bytes32 :=
  compute_root_no_prefix_go leaf (leaf_index proof) (branch proof).

(** One level up: [for i in (0..len).step_by(2)] hashing [left] with [right] (or the
    zero chunk when [i + 1] is out of range). *)
Fixpoint next_level (lvl : list bytes32) : list bytes32 :=
  match lvl with
  | l :: r :: rest => H l r :: next_level rest
  | [l] => [H l zero_chunk]
  | [] => []
  end.

(** The [while current_level.len() > 1] loop of [build_branch]; [fuel] bounds the
    iterations (each one halves the level). *)
Fixpoint build_branch_go (fuel : nat) (lvl : list bytes32) (idx : nat) : list bytes32 :=
  match fuel with
  | O => []
  | S f =>
      if Nat.ltb 1 (length lvl) then
        let sib := if Nat.even idx then S idx else Nat.pred idx in
        let s := nth sib lvl zero_chunk in
        s :: build_branch_go f (next_level lvl) (Nat.div idx 2)
      else []
  end.

Definition build_branch (leaves : list bytes32) (idx : nat) : list bytes32 :=
  let n := length leaves in
  let lvl := leaves ++ repeat zero_chunk (Nat.pow 2 (Nat.log2_up n) - n) in
  build_branch_go (length lvl) lvl idx.

(** [SszFieldMerkle::generate_proof]: [leaf_index as u8] wraps modulo 256. *)
Definition generate_proof_with (leaves : list bytes32) (idx : nat) : SszLeafInclusionProof :=
  {| branch := build_branch leaves idx; leaf_index := Z.of_nat idx mod 256 |}.

(** SSZ merkleization of [chunks] into a tree of depth [d] (zero-subtree padding). *)
Fixpoint zero_hash (d : nat) : bytes32 :=
  match d with
  | O => zero_chunk
  | S d' => let z := zero_hash d' in H z z
  end.

Fixpoint pair_up (z : bytes32) (l : list bytes32) : list bytes32 :=
  match l with
  | a :: b :: rest => H a b :: pair_up z rest
  | [a] => [H a z]
  | [] => []
  end.

Fixpoint merkleize_go (lvl d : nat) (l : list bytes32) : bytes32 :=
  match d with
  | O => hd (zero_hash lvl) l
  | S d' => merkleize_go (S lvl) d' (pair_up (zero_hash lvl) l)
  end.

Definition merkleize (d : nat) (chunks : list bytes32) : bytes32 := merkleize_go O d chunks.

End Merkle.

Definition verify_proof := verify_proof_with hash_internal.
Definition compute_root_no_prefix := compute_root_no_prefix_with hash_internal.
Definition generate_proof := generate_proof_with hash_internal.

(** ** Moho state ([state.rs], [constants.rs]) *)

Definition MAX_EXPORT_CONTAINERS : nat := 256.
Definition MAX_EXPORT_ENTRIES : nat := 4096.
Definition MAX_PAYLOAD_SIZE : nat := 4096.
Definition MAX_PREDICATE_SIZE : nat := 256.

Record ExportEntry := { entry_id : Z; payload : bytes }.
Record ExportContainer := {
  container_id : Z;
  common_payload : bytes;
  entries : list ExportEntry;
}.
Record ExportState := { containers : list ExportContainer }.

(** The SSZ-generated [MohoState]: [next_predicate] is a [VariableList<u8, 256>]. *)
Record MohoState := {
  inner_state : bytes32;
  next_predicate : bytes;
  export_state : ExportState;
}.

(** [strata_predicate::PredicateKey]: a type id and condition bytes; its buffer form
    ([as_buf_ref().to_bytes()]) is the type-id byte followed by the condition. *)
Record PredicateKey := { pred_type : Z; condition : bytes }.

Definition NEVER_ACCEPT : Z := 0.
Definition ALWAYS_ACCEPT : Z := 1.
Definition BIP340_SCHNORR : Z := 10.

Definition predicate_bytes (k : PredicateKey) : bytes := pred_type k :: condition k.

(** [VariableList::<u8, N>::from(Vec)] keeps the first [N] elements. *)
Definition variable_list_from {A} (n : nat) (v : list A) : list A := firstn n v.

(** [MohoState::new]. *)
Definition MohoState_new (inner : bytes32) (pred : PredicateKey) (exports : ExportState)
    : MohoState :=
  {| inner_state := inner;
     next_predicate := variable_list_from MAX_PREDICATE_SIZE (predicate_bytes pred);
     export_state := exports |}.

(** [ExportContainer::add_entry]: [entries.push(entry).expect(..)]; [None] is the panic
    raised when the list already holds [MAX_EXPORT_ENTRIES] entries. *)
Definition ExportContainer_add_entry (c : ExportContainer) (e : ExportEntry)
    : option ExportContainer :=
  if Nat.ltb (length (entries c)) MAX_EXPORT_ENTRIES
  then Some {| container_id := container_id c; common_payload := common_payload c;
               entries := entries c ++ [e] |}
  else None.

(** [ExportState::add_entry]: the first container with a matching id receives the entry
    ([iter_mut().find(..)]); with no match the state is left as it is. [None] is a panic. *)
Fixpoint add_entry_go (cs : list ExportContainer) (cid : Z) (e : ExportEntry)
    : option (list ExportContainer) :=
  match cs with
  | [] => Some []
  | c :: rest =>
      if Z.eqb (container_id c) cid then
        match ExportContainer_add_entry c e with
        | Some c' => Some (c' :: rest)
        | None => None
        end
      else option_map (cons c) (add_entry_go rest cid e)
  end.

Definition ExportState_add_entry (s : ExportState) (cid : Z) (e : ExportEntry)
    : option ExportState :=
  option_map (fun cs => {| containers := cs |}) (add_entry_go (containers s) cid e).

(** *** SSZ tree-hash roots *)

(** [pack]: bytes into 32-byte chunks, the last one zero-padded. *)
Fixpoint pack_go (fuel : nat) (bs : bytes) : list bytes32 :=
  match fuel with
  | O => []
  | S f =>
      match bs with
      | [] => []
      | _ => (firstn 32 bs ++ repeat 0 (32 - length (firstn 32 bs))) :: pack_go f (skipn 32 bs)
      end
  end.

Definition pack (bs : bytes) : list bytes32 := pack_go (length bs) bs.

(** A little-endian integer as one 32-byte chunk. *)
Definition uint_chunk (n : Z) : bytes32 :=
  map (fun i => Z.land (Z.shiftr n (8 * Z.of_nat i)) 255) (seq 0 32).

Definition mix_in_length (root : bytes32) (len : nat) : bytes32 :=
  hash_internal root (uint_chunk (Z.of_nat len)).

(** Root of a [List[uint8, 8 * 2^d]]. *)
Definition byte_list_root (d : nat) (bs : bytes) : bytes32 :=
  mix_in_length (merkleize hash_internal d (pack bs)) (length bs).

Definition ExportEntry_root (e : ExportEntry) : bytes32 :=
  merkleize hash_internal 1 [uint_chunk (entry_id e); byte_list_root 7 (payload e)].

Definition ExportContainer_root (c : ExportContainer) : bytes32 :=
  merkleize hash_internal 2
    [ uint_chunk (container_id c);
      byte_list_root 7 (common_payload c);
      mix_in_length (merkleize hash_internal 12 (map ExportEntry_root (entries c)))
                    (length (entries c)) ].

Definition ExportState_root (s : ExportState) : bytes32 :=
  mix_in_length (merkleize hash_internal 8 (map ExportContainer_root (containers s)))
                (length (containers s)).

(** Field roots of a [MohoState], in field order ([SszFieldRoots::ssz_field_roots]):
    [FixedBytes<32>] is its own root, [next_predicate] is a [List[uint8, 256]]. *)
Definition ssz_field_roots (s : MohoState) : list bytes32 :=
  [ inner_state s; byte_list_root 3 (next_predicate s); ExportState_root (export_state s) ].

(** Modelled from the spec: [MohoState]'s derived [tree_hash_root] (generated from the
    [moho.ssz] schema, not among the sources), i.e. the binary tree over the three field
    roots in order, padded with the zero chunk to four leaves. *)
Definition compute_commitment (s : MohoState) : bytes32 :=
  merkleize hash_internal 2 (ssz_field_roots s).

(** ** State attestations and transitions ([relation.rs], [transition.rs], [errors.rs]) *)

Record StateRefAttestation := { reference : bytes32; commitment : bytes32 }.

(** The derived [PartialEq]: field-wise byte equality. *)
Definition att_eqb (a b : StateRefAttestation) : bool :=
  bytes_eqb (reference a) (reference b) && bytes_eqb (commitment a) (commitment b).

Record Transition (T : Type) := { from_state : T; to_state : T }.
Arguments from_state {T}.
Arguments to_state {T}.

Record TransitionChainError (T : Type) := { first_end_state : T; second_start_state : T }.
Arguments first_end_state {T}.
Arguments second_start_state {T}.

Inductive Result (A E : Type) := Ok (a : A) | Err (e : E).
Arguments Ok {A E}.
Arguments Err {A E}.

(** [Transition::chain], with the [PartialEq] of [T] given as [eqb]. *)
Definition chain {T} (eqb : T -> T -> bool) (self next : Transition T)
    : Result (Transition T) (TransitionChainError T) :=
  if eqb (to_state self) (from_state next)
  then Ok {| from_state := from_state self; to_state := to_state next |}
  else Err {| first_end_state := to_state self; second_start_state := from_state next |}.

Definition MohoStateTransition := Transition StateRefAttestation.

Record MohoTransitionWithProof := { transition : MohoStateTransition; proof : bytes }.

(** [MohoError]: exactly the four variants of [errors.rs]; [InvalidProofError] carries the
    transition. *)
Inductive MohoError :=
| InvalidMohoChain (e : TransitionChainError StateRefAttestation)
| InvalidIncrementalProof (t : MohoStateTransition)
| InvalidRecursiveProof (t : MohoStateTransition)
| InvalidMerkleProof.

(** *** SSZ encodings used as claim bytes *)

Definition u32_le (n : Z) : bytes :=
  [ Z.land n 255; Z.land (Z.shiftr n 8) 255; Z.land (Z.shiftr n 16) 255;
    Z.land (Z.shiftr n 24) 255 ].

(** [StateRefAttestation] is a fixed-size container of two 32-byte fields. *)
Definition encode_attestation (a : StateRefAttestation) : bytes := reference a ++ commitment a.

Definition encode_transition (t : MohoStateTransition) : bytes :=
  encode_attestation (from_state t) ++ encode_attestation (to_state t).

(** The derived SSZ [Encode] of [MohoTransitionWithProof { transition, proof: Vec<u8> }]:
    the fixed part (the transition, then the 4-byte offset of [proof]) followed by the
    variable part ([proof]). *)
Definition encode_tw (tw : MohoTransitionWithProof) : bytes :=
  let fixed := encode_transition (transition tw) in
  fixed ++ u32_le (Z.of_nat (length fixed) + 4) ++ proof tw.

(** The leaf of a predicate key in the state tree: its [tree_hash_root], the root of its
    buffer bytes as a [List[uint8, 256]] (the form [MohoState] stores it in). *)
Definition predicate_root (k : PredicateKey) : bytes32 := byte_list_root 3 (predicate_bytes k).

(** ** Verification and chaining ([statements.rs]) *)

Record MohoRecursiveInput := {
  moho_predicate : PredicateKey;
  prev_recursive_proof : option MohoTransitionWithProof;
  incremental_step_proof : MohoTransitionWithProof;
  step_predicate : PredicateKey;
  step_predicate_merkle_proof : SszLeafInclusionProof;
}.

Record MohoRecursiveOutput := {
  out_transition : MohoStateTransition;
  out_moho_predicate : PredicateKey;
}.

(** The zkVM run of [process_recursive_moho_proof]: the committed output, or a panic
    (an [unwrap] on an [Err]/[None]). *)
Inductive ZkVmOutcome := Committed (o : MohoRecursiveOutput) | Panicked.

Section Driver.
(** Verification for the predicate kinds that run a cryptographic check (Schnorr,
    Groth16, ...): [kind], [condition], [claim], [witness]. *)
Variable crypto_verify : Z -> bytes -> bytes -> bytes -> bool.

(** [PredicateKey::verify_claim_witness], dispatching on the kind. *)
Definition verify_claim_witness (k : PredicateKey) (claim witness : bytes) : bool :=
  if Z.eqb (pred_type k) ALWAYS_ACCEPT then true
  else if Z.eqb (pred_type k) NEVER_ACCEPT then false
  else crypto_verify (pred_type k) (condition k) claim witness.

(** [MohoTransitionWithProof::verify]: the public values are [ssz_encode(&self)]. *)
Definition tw_verify (tw : MohoTransitionWithProof) (verifier : PredicateKey)
    : Result unit MohoStateTransition :=
  if verify_claim_witness verifier (encode_tw tw) (proof tw)
  then Ok tt
  else Err (transition tw).

Definition verify_and_chain_transition (input : MohoRecursiveInput)
    : Result MohoStateTransition MohoError :=
  (* 1: inclusion of the step predicate in the prior state commitment *)
  let next_predicate_hash := predicate_root (step_predicate input) in
  let expected_root :=
    commitment (from_state (transition (incremental_step_proof input))) in
  let computed_root :=
    compute_root_no_prefix (step_predicate_merkle_proof input) next_predicate_hash in
  if negb (bytes_eqb computed_root expected_root) then Err InvalidMerkleProof
  else
    (* 2: the incremental step proof *)
    match tw_verify (incremental_step_proof input) (step_predicate input) with
    | Err e => Err (InvalidIncrementalProof e)
    | Ok _ =>
        let step_t := transition (incremental_step_proof input) in
        (* 3: the previous recursive proof and chaining *)
        match prev_recursive_proof input with
        | None => Ok step_t
        | Some prev_proof =>
            match tw_verify prev_proof (moho_predicate input) with
            | Err e => Err (InvalidRecursiveProof e)
            | Ok _ =>
                match chain att_eqb (transition prev_proof) step_t with
                | Ok t => Ok t
                | Err e => Err (InvalidMohoChain e)
                end
            end
        end
    end.

(** [process_recursive_moho_proof], with [from_ssz_bytes] given as [decode]. *)
Definition process_recursive_moho_proof (decode : bytes -> option MohoRecursiveInput)
    (input_ssz_bytes : bytes) : ZkVmOutcome :=
  match decode input_ssz_bytes with
  | None => Panicked
  | Some input =>
      match verify_and_chain_transition input with
      | Err _ => Panicked
      | Ok full_transition =>
          Committed {| out_transition := full_transition;
                       out_moho_predicate := moho_predicate input |}
      end
  end.

End Driver.

(** ** Concrete scenarios (spec §8: [inner = [id; 32]], empty exports, always-accept
    predicates, inclusion proofs generated at outer index 1) *)

Definition always_accept : PredicateKey := {| pred_type := ALWAYS_ACCEPT; condition := [] |}.

Definition empty_exports : ExportState := {| containers := [] |}.

Definition scenario_state (id : Z) : MohoState :=
  MohoState_new (repeat id 32) always_accept empty_exports.

Definition scenario_att (id : Z) : StateRefAttestation :=
  {| reference := repeat id 32; commitment := compute_commitment (scenario_state id) |}.

Definition scenario_transition (a b : Z) : MohoStateTransition :=
  {| from_state := scenario_att a; to_state := scenario_att b |}.

Definition scenario_tw (a b : Z) : MohoTransitionWithProof :=
  {| transition := scenario_transition a b; proof := [] |}.

Definition scenario_input (prev : option MohoTransitionWithProof) (a b : Z)
    : MohoRecursiveInput :=
  {| moho_predicate := always_accept;
     prev_recursive_proof := prev;
     incremental_step_proof := scenario_tw a b;
     step_predicate := always_accept;
     step_predicate_merkle_proof := generate_proof (ssz_field_roots (scenario_state a)) 1 |}.

(** A cryptographic verifier that rejects everything; the scenarios never reach it. *)
Definition reject_all (_ : Z) (_ _ _ : bytes) : bool := false.

(** A predicate key whose buffer (type byte and 300 condition bytes) exceeds 256 bytes. *)
Definition oversized_predicate : PredicateKey :=
  {| pred_type := BIP340_SCHNORR; condition := repeat 7 300 |}.

(** ** Borsh encoding of the state types ([state.rs]) *)

Definition u16_le (n : Z) : bytes := [ Z.land n 255; Z.land (Z.shiftr n 8) 255 ].

(** Borsh [Vec<u8>]: the length as a [u32] (little-endian), then the bytes. *)
Definition borsh_vec_u8 (bs : bytes) : bytes := u32_le (Z.of_nat (length bs)) ++ bs.

(** [impl BorshSerialize for ExportEntry]. *)
Definition ExportEntry_serialize (e : ExportEntry) : bytes :=
  u32_le (entry_id e) ++ borsh_vec_u8 (payload e).

(** [impl BorshSerialize for ExportContainer]: the entry count is [entries.len() as u32]. *)
Definition ExportContainer_serialize (c : ExportContainer) : bytes :=
  u16_le (container_id c) ++ borsh_vec_u8 (common_payload c) ++
  u32_le (Z.of_nat (length (entries c))) ++ flat_map ExportEntry_serialize (entries c).

(** [impl BorshSerialize for ExportState]. *)
Definition ExportState_serialize (s : ExportState) : bytes :=
  u32_le (Z.of_nat (length (containers s))) ++ flat_map ExportContainer_serialize (containers s).

(** [impl BorshSerialize for MohoState]: written out field by field in the source. *)
Definition MohoState_serialize (s : MohoState) : bytes :=
  inner_state s ++ borsh_vec_u8 (next_predicate s) ++
  u32_le (Z.of_nat (length (containers (export_state s)))) ++
  flat_map (fun c =>
      u16_le (container_id c) ++ borsh_vec_u8 (common_payload c) ++
      u32_le (Z.of_nat (length (entries c))) ++
      flat_map (fun e => u32_le (entry_id e) ++ borsh_vec_u8 (payload e)) (entries c))
    (containers (export_state s)).

(** Decoders read a prefix of the input and return the rest; [None] is a read error. *)
Definition Dec (A : Type) := bytes -> option (A * bytes).

Definition dret {A} (a : A) : Dec A := fun bs => Some (a, bs).
Definition dbind {A B} (d : Dec A) (k : A -> Dec B) : Dec B :=
  fun bs => match d bs with None => None | Some (a, rest) => k a rest end.
Notation "x <- d ;; k" := (dbind d (fun x => k)) (at level 61, d at next level, right associativity).

(** [read_exact] of [n] bytes. *)
Definition read_bytes (n : nat) : Dec bytes :=
  fun bs => if Nat.leb n (length bs) then Some (firstn n bs, skipn n bs) else None.

Definition le_value (bs : bytes) : Z := fold_right (fun b acc => b + 256 * acc) 0 bs.

Definition read_u16 : Dec Z := b <- read_bytes 2 ;; dret (le_value b).
Definition read_u32 : Dec Z := b <- read_bytes 4 ;; dret (le_value b).
Definition read_vec_u8 : Dec bytes := n <- read_u32 ;; read_bytes (Z.to_nat n).

(** [for _ in 0..n { v.push(d?) }]. *)
Fixpoint read_n {A} (n : nat) (d : Dec A) : Dec (list A) :=
  match n with
  | O => dret []
  | S n' => x <- d ;; xs <- read_n n' d ;; dret (x :: xs)
  end.

(** [impl BorshDeserialize for ExportEntry]: [Self::new], whose [VariableList::from] keeps
    at most [MAX_PAYLOAD_SIZE] payload bytes. *)
Definition ExportEntry_deserialize : Dec ExportEntry :=
  id <- read_u32 ;; pl <- read_vec_u8 ;;
  dret {| entry_id := id; payload := variable_list_from MAX_PAYLOAD_SIZE pl |}.

(** [impl BorshDeserialize for ExportContainer] (through [ExportContainer::new]). *)
Definition ExportContainer_deserialize : Dec ExportContainer :=
  id <- read_u16 ;; cp <- read_vec_u8 ;; n <- read_u32 ;;
  es <- read_n (Z.to_nat n) ExportEntry_deserialize ;;
  dret {| container_id := id;
          common_payload := variable_list_from MAX_PAYLOAD_SIZE cp;
          entries := variable_list_from MAX_EXPORT_ENTRIES es |}.

(** [impl BorshDeserialize for ExportState] (through [ExportState::new]). *)
Definition ExportState_deserialize : Dec ExportState :=
  n <- read_u32 ;; cs <- read_n (Z.to_nat n) ExportContainer_deserialize ;;
  dret {| containers := variable_list_from MAX_EXPORT_CONTAINERS cs |}.

(** [impl BorshDeserialize for MohoState], with its loops written out as in the source. *)
Definition MohoState_deserialize : Dec MohoState :=
  inner <- read_bytes 32 ;;
  pred_vec <- read_vec_u8 ;;
  cont_len <- read_u32 ;;
  cs <- read_n (Z.to_nat cont_len)
          (container_id <- read_u16 ;;
           common_payload_vec <- read_vec_u8 ;;
           entries_len <- read_u32 ;;
           es <- read_n (Z.to_nat entries_len)
                   (entry_id <- read_u32 ;;
                    payload_vec <- read_vec_u8 ;;
                    dret {| entry_id := entry_id;
                            payload := variable_list_from MAX_PAYLOAD_SIZE payload_vec |}) ;;
           dret {| container_id := container_id;
                   common_payload := variable_list_from MAX_PAYLOAD_SIZE common_payload_vec;
                   entries := variable_list_from MAX_EXPORT_ENTRIES es |}) ;;
  dret {| inner_state := inner;
          next_predicate := variable_list_from MAX_PREDICATE_SIZE pred_vec;
          export_state := {| containers := variable_list_from MAX_EXPORT_CONTAINERS cs |} |}.

(** A decoder is stable under extension when reading more input after a successful read
    does not change what it returned. *)
Definition ext_stable {A} (d : Dec A) : Prop :=
  forall bs a r x, d bs = Some (a, r) -> d (bs ++ x) = Some (a, r ++ x).


(** What decoding keeps of a value: every list cut to its bound. *)
Definition ExportEntry_bounded (e : ExportEntry) : ExportEntry :=
  {| entry_id := entry_id e; payload := firstn MAX_PAYLOAD_SIZE (payload e) |}.

Definition ExportContainer_bounded (c : ExportContainer) : ExportContainer :=
  {| container_id := container_id c;
     common_payload := firstn MAX_PAYLOAD_SIZE (common_payload c);
     entries := firstn MAX_EXPORT_ENTRIES (map ExportEntry_bounded (entries c)) |}.

Definition ExportState_bounded (s : ExportState) : ExportState :=
  {| containers := firstn MAX_EXPORT_CONTAINERS (map ExportContainer_bounded (containers s)) |}.

Definition MohoState_bounded (s : MohoState) : MohoState :=
  {| inner_state := inner_state s;
     next_predicate := firstn MAX_PREDICATE_SIZE (next_predicate s);
     export_state := ExportState_bounded (export_state s) |}.

(** Values the encoders write faithfully: integers in their [u16]/[u32] ranges and list
    lengths that fit the [u32] length prefixes. *)
Definition u32_range (n : Z) : Prop := 0 <= n < 2 ^ 32.

Definition ExportEntry_wf (e : ExportEntry) : Prop :=
  u32_range (entry_id e) /\ u32_range (Z.of_nat (length (payload e))).

Definition ExportContainer_wf (c : ExportContainer) : Prop :=
  0 <= container_id c < 2 ^ 16 /\ u32_range (Z.of_nat (length (common_payload c))) /\
  u32_range (Z.of_nat (length (entries c))) /\ Forall ExportEntry_wf (entries c).

Definition ExportState_wf (s : ExportState) : Prop :=
  u32_range (Z.of_nat (length (containers s))) /\ Forall ExportContainer_wf (containers s).

Definition MohoState_wf (s : MohoState) : Prop :=
  length (inner_state s) = 32%nat /\ u32_range (Z.of_nat (length (next_predicate s))) /\
  ExportState_wf (export_state s).

(** ** Runtime checks and transition ([runtime.rs]) *)

(** [for pair in xs.windows(2) { if bad(pair[0], pair[1]) { return false } }]. *)
Fixpoint windows2_all {A} (ok : A -> A -> bool) (xs : list A) : bool :=
  match xs with
  | a :: ((b :: _) as rest) => ok a b && windows2_all ok rest
  | _ => true
  end.

(** [check_export_cont_structure]. *)
Definition check_export_cont_structure (cont : ExportContainer) : bool :=
  if Nat.ltb MAX_EXPORT_ENTRIES (length (entries cont)) then false
  else if Nat.ltb MAX_PAYLOAD_SIZE (length (common_payload cont)) then false
  else if negb (windows2_all (fun a b => negb (entry_id a >=? entry_id b)) (entries cont))
  then false
  else forallb (fun e => negb (Nat.ltb MAX_PAYLOAD_SIZE (length (payload e)))) (entries cont).

(** [check_export_state_structure]. *)
Definition check_export_state_structure (estate : ExportState) : bool :=
  if Nat.ltb MAX_EXPORT_CONTAINERS (length (containers estate)) then false
  else if negb (windows2_all (fun a b => negb (container_id a >=? container_id b))
                             (containers estate))
  then false
  else forallb check_export_cont_structure (containers estate).

(** The associated functions of the guest program as [runtime.rs] calls them
    ([P::process_transition] returning the post state with the step output,
    [P::extract_next_vk], [P::extract_export_state]). *)
Record MohoProgram (State StepInput StepOutput : Type) := {
  compute_input_reference : StepInput -> bytes32;
  extract_prev_reference : StepInput -> bytes32;
  compute_state_commitment : State -> bytes32;
  process_transition : State -> StepInput -> State * StepOutput;
  extract_next_vk : StepOutput -> PredicateKey;
  extract_export_state : StepOutput -> ExportState;
}.
Arguments compute_input_reference {State StepInput StepOutput}.
Arguments extract_prev_reference {State StepInput StepOutput}.
Arguments compute_state_commitment {State StepInput StepOutput}.
Arguments process_transition {State StepInput StepOutput}.
Arguments extract_next_vk {State StepInput StepOutput}.
Arguments extract_export_state {State StepInput StepOutput}.

Section Runtime.
Context {State StepInput StepOutput : Type}.
Variable P : MohoProgram State StepInput StepOutput.

(** [compute_wrapping_moho_state]; [None] is the [panic!] on a bad export state. *)
Definition compute_wrapping_moho_state (state : State) (step_output : StepOutput)
    : option MohoState :=
  let inner_root := compute_state_commitment P state in
  let next_vk := extract_next_vk P step_output in
  let export_state := extract_export_state P step_output in
  if negb (check_export_state_structure export_state) then None
  else Some (MohoState_new inner_root next_vk export_state).

(** [compute_transition]; [None] is a failed [assert_eq!] or a panic further down. *)
Definition compute_transition (pre_state_ref : bytes32) (pre_moho_state : MohoState)
    (pre_inner_state : State) (input : StepInput) : option MohoState :=
  let computed_inner_state_root := compute_state_commitment P pre_inner_state in
  if negb (bytes_eqb computed_inner_state_root (inner_state pre_moho_state)) then None
  else
    let input_parent_ref := extract_prev_reference P input in
    if negb (bytes_eqb input_parent_ref pre_state_ref) then None
    else
      let (post_state, step_output) := process_transition P pre_inner_state input in
      compute_wrapping_moho_state post_state step_output.

End Runtime.

(** [Transition::is_no_op], with the [PartialEq] of [T] given as [eqb]. *)
Definition is_no_op {T} (eqb : T -> T -> bool) (t : Transition T) : bool :=
  eqb (from_state t) (to_state t).

(** A small export state: one container holding one entry. *)
Definition toy_export : ExportState :=
  {| containers := [ {| container_id := 3; common_payload := [1; 2];
                        entries := [ {| entry_id := 0; payload := [9] |} ] |} ] |}.

(** A small [MohoState] over [toy_export]. *)
Definition toy_state : MohoState :=
  {| inner_state := repeat 5 32; next_predicate := predicate_bytes always_accept;
     export_state := toy_export |}.

(** Three field roots, as leaves of an inclusion tree. *)
Definition sample_leaves : list bytes32 := [zero_chunk; repeat 1 32; repeat 2 32].

(** ** Proofs *)

Lemma bytes_eqb_eq (a b : bytes) : bytes_eqb a b = true <-> a = b.
Proof.
  revert b; induction a as [|x a IH]; intros [|y b]; simpl; try (split; congruence).
  rewrite andb_true_iff, Z.eqb_eq, IH; split.
  - intros [-> ->]; reflexivity.
  - intros H; injection H; auto.
Qed.

Lemma bytes_eqb_refl (a : bytes) : bytes_eqb a a = true.
Proof. apply bytes_eqb_eq; reflexivity. Qed.

Lemma att_eqb_eq (a b : StateRefAttestation) : att_eqb a b = true <-> a = b.
Proof.
  destruct a as [ra ca], b as [rb cb]; unfold att_eqb; simpl.
  rewrite andb_true_iff, !bytes_eqb_eq; split.
  - intros [-> ->]; reflexivity.
  - intros H; injection H; auto.
Qed.

Lemma att_eqb_neq (a b : StateRefAttestation) : att_eqb a b = false <-> a <> b.
Proof.
  rewrite <- att_eqb_eq; destruct (att_eqb a b); split; congruence.
Qed.

(** C6: [chain T1 T2] succeeds exactly when [T1.to = T2.from], with result
    [{from: T1.from, to: T2.to}]; otherwise its error carries exactly [T1.to] and
    [T2.from]. *)
Theorem chain_ok_iff_endpoints_match (t1 t2 : MohoStateTransition) :
  (forall t, chain att_eqb t1 t2 = Ok t <->
             to_state t1 = from_state t2 /\
             t = {| from_state := from_state t1; to_state := to_state t2 |}) /\
  (forall e, chain att_eqb t1 t2 = Err e <->
             to_state t1 <> from_state t2 /\
             e = {| first_end_state := to_state t1; second_start_state := from_state t2 |}).
Proof.
  unfold chain; split; intros r;
    destruct (att_eqb (to_state t1) (from_state t2)) eqn:E;
    [ apply att_eqb_eq in E | apply att_eqb_neq in E
    | apply att_eqb_eq in E | apply att_eqb_neq in E ];
    split; intros H; try discriminate; try (destruct H; contradiction).
  - injection H as <-; auto.
  - destruct H as [_ ->]; reflexivity.
  - injection H as <-; auto.
  - destruct H as [_ ->]; reflexivity.
Qed.

(** C8: for pairwise-chainable [T1, T2, T3] both bracketings succeed and agree. *)
Theorem chain_assoc (t1 t2 t3 : MohoStateTransition)
    (H12 : to_state t1 = from_state t2) (H23 : to_state t2 = from_state t3) :
  exists t12 t23 t,
    chain att_eqb t1 t2 = Ok t12 /\ chain att_eqb t2 t3 = Ok t23 /\
    chain att_eqb t12 t3 = Ok t /\ chain att_eqb t1 t23 = Ok t.
Proof.
  destruct t1 as [a b], t2 as [b' c], t3 as [c' d]; simpl in *; subst b' c'.
  assert (Hb : att_eqb b b = true) by (apply att_eqb_eq; reflexivity).
  assert (Hc : att_eqb c c = true) by (apply att_eqb_eq; reflexivity).
  exists {| from_state := a; to_state := c |}, {| from_state := b; to_state := d |},
    {| from_state := a; to_state := d |}.
  unfold chain; simpl; rewrite Hb, Hc; repeat split.
Qed.

Lemma chain_assoc_witness :
  to_state (scenario_transition 1 2) = from_state (scenario_transition 2 3) /\
  to_state (scenario_transition 2 3) = from_state (scenario_transition 3 10) /\
  exists t12 t23 t,
    chain att_eqb (scenario_transition 1 2) (scenario_transition 2 3) = Ok t12 /\
    chain att_eqb (scenario_transition 2 3) (scenario_transition 3 10) = Ok t23 /\
    chain att_eqb t12 (scenario_transition 3 10) = Ok t /\
    chain att_eqb (scenario_transition 1 2) t23 = Ok t.
Proof.
  split; [reflexivity | split; [reflexivity |]].
  apply chain_assoc; reflexivity.
Defined.

(** C1: when [verify_and_chain_transition] succeeds, with a previous recursive proof [p]
    the result runs from [p]'s [from] to the step's [to]; without one it is the step's
    transition unchanged. *)
Theorem verify_and_chain_endpoints (cv : Z -> bytes -> bytes -> bytes -> bool)
    (input : MohoRecursiveInput) (t : MohoStateTransition)
    (Hok : verify_and_chain_transition cv input = Ok t) :
  match prev_recursive_proof input with
  | Some p =>
      from_state t = from_state (transition p) /\
      to_state t = to_state (transition (incremental_step_proof input))
  | None => t = transition (incremental_step_proof input)
  end.
Proof.
  unfold verify_and_chain_transition in Hok.
  destruct (negb _); [discriminate |].
  destruct (tw_verify cv (incremental_step_proof input) (step_predicate input));
    [| discriminate].
  destruct (prev_recursive_proof input) as [p |].
  - destruct (tw_verify cv p (moho_predicate input)); [| discriminate].
    unfold chain in Hok.
    destruct (att_eqb _ _); [| discriminate].
    injection Hok as <-; split; reflexivity.
  - injection Hok as <-; reflexivity.
Qed.

Lemma verify_and_chain_endpoints_witness :
  verify_and_chain_transition reject_all (scenario_input (Some (scenario_tw 1 2)) 2 3)
    = Ok (scenario_transition 1 3) /\
  from_state (scenario_transition 1 3) = from_state (transition (scenario_tw 1 2)) /\
  to_state (scenario_transition 1 3) = to_state (transition (scenario_tw 2 3)).
Proof.
  assert (H : verify_and_chain_transition reject_all
                (scenario_input (Some (scenario_tw 1 2)) 2 3) = Ok (scenario_transition 1 3))
    by (vm_compute; reflexivity).
  split; [exact H | exact (verify_and_chain_endpoints _ _ _ H)].
Defined.

(** C3 (counterexample): scenario S1 with the inclusion proof's index changed from 1 to 5
    (same two siblings) is accepted: only the low bits of the index steer the fold. *)
Lemma inclusion_index_five_accepted :
  leaf_index (step_predicate_merkle_proof (scenario_input None 1 2)) = 1 /\
  verify_and_chain_transition reject_all
    {| moho_predicate := always_accept;
       prev_recursive_proof := None;
       incremental_step_proof := scenario_tw 1 2;
       step_predicate := always_accept;
       step_predicate_merkle_proof :=
         {| branch := branch (step_predicate_merkle_proof (scenario_input None 1 2));
            leaf_index := 5 |} |}
    = Ok (scenario_transition 1 2).
Proof. split; vm_compute; reflexivity. Qed.

(** C3 (amended): acceptance only means that folding the step predicate's leaf hash along
    the proof's branch, steered by the bits of the proof's index, gives the prior state
    commitment; the index is not compared with 1. *)
Theorem verify_and_chain_inclusion (cv : Z -> bytes -> bytes -> bytes -> bool)
    (input : MohoRecursiveInput) (t : MohoStateTransition)
    (Hok : verify_and_chain_transition cv input = Ok t) :
  compute_root_no_prefix (step_predicate_merkle_proof input)
    (predicate_root (step_predicate input))
  = commitment (from_state (transition (incremental_step_proof input))).
Proof.
  unfold verify_and_chain_transition in Hok.
  destruct (bytes_eqb _ _) eqn:E; [apply bytes_eqb_eq in E; exact E | discriminate].
Qed.

Lemma verify_and_chain_inclusion_witness :
  verify_and_chain_transition reject_all (scenario_input None 1 2) = Ok (scenario_transition 1 2) /\
  compute_root_no_prefix (step_predicate_merkle_proof (scenario_input None 1 2))
    (predicate_root always_accept) = commitment (scenario_att 1).
Proof.
  assert (H : verify_and_chain_transition reject_all (scenario_input None 1 2)
              = Ok (scenario_transition 1 2)) by (vm_compute; reflexivity).
  split; [exact H | exact (verify_and_chain_inclusion _ _ _ H)].
Defined.

(** C10: with an empty branch, verification accepts exactly when the leaf is the root,
    whatever the index: no minimum depth is required (same for the driver's fold). *)
Theorem verify_empty_branch (root leaf : bytes32) (idx : Z) :
  (verify_proof root {| branch := []; leaf_index := idx |} leaf = true <-> leaf = root) /\
  compute_root_no_prefix {| branch := []; leaf_index := idx |} leaf = leaf.
Proof.
  split; [apply bytes_eqb_eq | reflexivity].
Qed.

(** Generation and verification agree on a three-leaf tree (padded to four), for any node
    hash. *)
Lemma three_leaf_roundtrip (H : bytes32 -> bytes32 -> bytes32) (a b c : bytes32) :
  verify_proof_with H (merkleize H 2 [a; b; c]) (generate_proof_with H [a; b; c] 0) a = true /\
  verify_proof_with H (merkleize H 2 [a; b; c]) (generate_proof_with H [a; b; c] 1) b = true /\
  verify_proof_with H (merkleize H 2 [a; b; c]) (generate_proof_with H [a; b; c] 2) c = true.
Proof.
  cbn -[zero_chunk]; rewrite !bytes_eqb_refl; repeat split.
Qed.

(** C7: for every state and field index [i] in [{0,1,2}], the proof generated for leaf [i]
    over the state's three field roots verifies against [compute_commitment s] with the
    [i]-th field root as leaf. *)
Theorem field_inclusion_roundtrip (s : MohoState) :
  verify_proof (compute_commitment s) (generate_proof (ssz_field_roots s) 0)
    (nth 0 (ssz_field_roots s) zero_chunk) = true /\
  verify_proof (compute_commitment s) (generate_proof (ssz_field_roots s) 1)
    (nth 1 (ssz_field_roots s) zero_chunk) = true /\
  verify_proof (compute_commitment s) (generate_proof (ssz_field_roots s) 2)
    (nth 2 (ssz_field_roots s) zero_chunk) = true.
Proof.
  unfold verify_proof, generate_proof, compute_commitment, ssz_field_roots.
  apply three_leaf_roundtrip.
Qed.

(** C2 (code_bug): [MohoTransitionWithProof::verify] hands the predicate the encoding of
    the whole wrapper, i.e. the transition's encoding followed by the proof's offset and
    the proof bytes, which is never the encoding of the transition alone. *)
Theorem tw_verify_claims_wrapper_encoding (cv : Z -> bytes -> bytes -> bytes -> bool)
    (tw : MohoTransitionWithProof) (k : PredicateKey) :
  tw_verify cv tw k =
    (if verify_claim_witness cv k (encode_tw tw) (proof tw) then Ok tt else Err (transition tw)) /\
  encode_tw tw =
    encode_transition (transition tw)
      ++ u32_le (Z.of_nat (length (encode_transition (transition tw))) + 4) ++ proof tw /\
  encode_tw tw <> encode_transition (transition tw).
Proof.
  split; [reflexivity | split; [reflexivity |]].
  unfold encode_tw; cbv zeta; intros Heq.
  apply (f_equal (@length Z)) in Heq.
  rewrite !length_app in Heq.
  change (length (u32_le _)) with 4%nat in Heq.
  unfold byte in Heq; lia.
Qed.

Lemma add_entry_go_absent (cs : list ExportContainer) (cid : Z) (e : ExportEntry) :
  Forall (fun c => container_id c <> cid) cs -> add_entry_go cs cid e = Some cs.
Proof.
  induction 1 as [| c cs Hc _ IH]; simpl; [reflexivity |].
  rewrite (proj2 (Z.eqb_neq _ _) Hc), IH; reflexivity.
Qed.

Lemma add_entry_go_first (pre post : list ExportContainer) (c : ExportContainer)
    (cid : Z) (e : ExportEntry) :
  Forall (fun c => container_id c <> cid) pre -> container_id c = cid ->
  add_entry_go (pre ++ c :: post) cid e =
    option_map (fun c' => pre ++ c' :: post) (ExportContainer_add_entry c e).
Proof.
  intros Hpre Hc; induction Hpre as [| d pre Hd _ IH]; simpl.
  - rewrite Hc, Z.eqb_refl; destruct (ExportContainer_add_entry c e); reflexivity.
  - rewrite (proj2 (Z.eqb_neq _ _) Hd), IH.
    destruct (ExportContainer_add_entry c e); reflexivity.
Qed.

(** C4 (counterexample): adding to an id no container has leaves the export state as it
    is; no container is created. *)
Lemma add_entry_missing_container_noop :
  ExportState_add_entry empty_exports 7 {| entry_id := 1; payload := [42] |}
    = Some empty_exports.
Proof. reflexivity. Qed.

(** C4 (amended): with no container of that id the state is unchanged; otherwise the
    first container with that id gets the entry appended to its entries (a panic when it
    already holds [MAX_EXPORT_ENTRIES] entries), the rest of the state unchanged. *)
Theorem add_entry_spec (s : ExportState) (cid : Z) (e : ExportEntry) :
  (Forall (fun c => container_id c <> cid) (containers s) ->
     ExportState_add_entry s cid e = Some s) /\
  (forall pre c post,
     containers s = pre ++ c :: post ->
     Forall (fun c => container_id c <> cid) pre -> container_id c = cid ->
     ExportState_add_entry s cid e =
       if Nat.ltb (length (entries c)) MAX_EXPORT_ENTRIES
       then Some {| containers :=
                      pre ++ {| container_id := container_id c;
                                common_payload := common_payload c;
                                entries := entries c ++ [e] |} :: post |}
       else None).
Proof.
  unfold ExportState_add_entry; split.
  - intros H; rewrite add_entry_go_absent by exact H; destruct s; reflexivity.
  - intros pre c post Hs Hpre Hc; rewrite Hs, add_entry_go_first by assumption.
    unfold ExportContainer_add_entry; destruct (Nat.ltb _ _); reflexivity.
Qed.

(** C5 (counterexample): input bytes that do not decode end the run in a panic; no error
    value (and no decode variant, which [MohoError] lacks) is reported. *)
Lemma undecodable_input_panics :
  process_recursive_moho_proof reject_all (fun _ => None) [] = Panicked.
Proof. reflexivity. Qed.

(** C5 (amended): [MohoError] has exactly the four variants [InvalidMohoChain],
    [InvalidIncrementalProof], [InvalidRecursiveProof] and [InvalidMerkleProof];
    [process_recursive_moho_proof] panics exactly when the input does not decode or
    [verify_and_chain_transition] returns one of them, and otherwise commits. *)
Theorem process_recursive_failure_surface (cv : Z -> bytes -> bytes -> bytes -> bool)
    (decode : bytes -> option MohoRecursiveInput) (bs : bytes) :
  (forall e : MohoError,
     (exists c, e = InvalidMohoChain c) \/ (exists t, e = InvalidIncrementalProof t) \/
     (exists t, e = InvalidRecursiveProof t) \/ e = InvalidMerkleProof) /\
  (process_recursive_moho_proof cv decode bs = Panicked <->
     decode bs = None \/
     exists input e, decode bs = Some input /\ verify_and_chain_transition cv input = Err e).
Proof.
  split.
  - intros [c | t | t |].
    + left; exists c; reflexivity.
    + right; left; exists t; reflexivity.
    + right; right; left; exists t; reflexivity.
    + right; right; right; reflexivity.
  - unfold process_recursive_moho_proof.
    destruct (decode bs) as [input |].
    + destruct (verify_and_chain_transition cv input) as [t | e] eqn:E; split.
      * discriminate.
      * intros [H | (i & e & Hi & He)]; [discriminate |].
        injection Hi as <-; congruence.
      * intros _; right; eauto.
      * reflexivity.
    + split; auto.
Qed.

(** C9 (counterexample): [MohoState::new] accepts an oversized predicate and stores only
    the first 256 bytes of its buffer. *)
Lemma oversized_predicate_truncated :
  length (predicate_bytes oversized_predicate) = 301%nat /\
  next_predicate (MohoState_new zero_chunk oversized_predicate empty_exports)
    = firstn 256 (predicate_bytes oversized_predicate) /\
  length (next_predicate (MohoState_new zero_chunk oversized_predicate empty_exports)) = 256%nat.
Proof. vm_compute; repeat split. Qed.

(** C9 (amended): [MohoState::new] never fails; it stores the first 256 bytes of the
    predicate's buffer, i.e. the buffer itself when it has at most 256 bytes. *)
Theorem MohoState_new_predicate_bytes (inner : bytes32) (pred : PredicateKey)
    (exports : ExportState) :
  next_predicate (MohoState_new inner pred exports)
    = firstn MAX_PREDICATE_SIZE (predicate_bytes pred) /\
  ((length (predicate_bytes pred) <= MAX_PREDICATE_SIZE)%nat ->
     next_predicate (MohoState_new inner pred exports) = predicate_bytes pred).
Proof.
  split; [reflexivity |].
  intros H; apply firstn_all2; exact H.
Qed.

(** *** Borsh codec ([state.rs]) *)

Lemma byte_split (x : Z) : Z.land x 255 + 256 * Z.shiftr x 8 = x.
Proof.
  change 255 with (Z.ones 8). rewrite Z.land_ones by lia. rewrite Z.shiftr_div_pow2 by lia.
  change (2 ^ 8) with 256. pose proof (Z.div_mod x 256). lia.
Qed.

Lemma low_byte_small (x : Z) : 0 <= x < 256 -> Z.land x 255 = x.
Proof.
  intros Hx. change 255 with (Z.ones 8). rewrite Z.land_ones by lia.
  apply Z.mod_small. change (2 ^ 8) with 256. lia.
Qed.

Lemma le_value_u32_le (n : Z) : 0 <= n < 2 ^ 32 -> le_value (u32_le n) = n.
Proof.
  intros Hn. unfold le_value, u32_le; cbn [fold_right].
  assert (H24 : 0 <= Z.shiftr n 24 < 2 ^ 8).
  { rewrite Z.shiftr_div_pow2 by lia. split. apply Z.div_pos; lia.
    apply Z.div_lt_upper_bound. lia. rewrite <- Z.pow_add_r by lia. simpl. lia. }
  rewrite (low_byte_small (Z.shiftr n 24)) by (change (2^8) with 256 in H24; lia).
  rewrite Z.add_0_r.
  replace (Z.shiftr n 24) with (Z.shiftr (Z.shiftr n 16) 8) by (rewrite Z.shiftr_shiftr; reflexivity || lia).
  rewrite byte_split.
  replace (Z.shiftr n 16) with (Z.shiftr (Z.shiftr n 8) 8) by (rewrite Z.shiftr_shiftr; reflexivity || lia).
  rewrite byte_split. rewrite byte_split. reflexivity.
Qed.

Lemma le_value_u16_le (n : Z) : 0 <= n < 2 ^ 16 -> le_value (u16_le n) = n.
Proof.
  intros Hn. unfold le_value, u16_le; cbn [fold_right].
  assert (H8 : 0 <= Z.shiftr n 8 < 2 ^ 8).
  { rewrite Z.shiftr_div_pow2 by lia. split. apply Z.div_pos; lia.
    apply Z.div_lt_upper_bound. lia. rewrite <- Z.pow_add_r by lia. simpl. lia. }
  rewrite (low_byte_small (Z.shiftr n 8)) by (change (2^8) with 256 in H8; lia).
  rewrite Z.add_0_r. apply byte_split.
Qed.

Lemma dbind_some {A B} (d : Dec A) (k : A -> Dec B) bs a rest :
  d bs = Some (a, rest) -> dbind d k bs = k a rest.
Proof. intros Hd. unfold dbind. rewrite Hd. reflexivity. Qed.

Lemma read_bytes_app (l rest : bytes) :
  read_bytes (length l) (l ++ rest) = Some (l, rest).
Proof.
  unfold read_bytes. rewrite length_app.
  replace (Nat.leb (length l) (length l + length rest)) with true
    by (symmetry; apply Nat.leb_le; lia).
  rewrite firstn_app, skipn_app, Nat.sub_diag, firstn_all, skipn_all. simpl.
  rewrite app_nil_r. reflexivity.
Qed.

Lemma read_u32_app (n : Z) (rest : bytes) :
  0 <= n < 2 ^ 32 -> read_u32 (u32_le n ++ rest) = Some (n, rest).
Proof.
  intros Hn. unfold read_u32.
  rewrite (dbind_some _ _ _ (u32_le n) rest) by apply (read_bytes_app (u32_le n)).
  unfold dret. rewrite le_value_u32_le by exact Hn. reflexivity.
Qed.

Lemma read_u16_app (n : Z) (rest : bytes) :
  0 <= n < 2 ^ 16 -> read_u16 (u16_le n ++ rest) = Some (n, rest).
Proof.
  intros Hn. unfold read_u16.
  rewrite (dbind_some _ _ _ (u16_le n) rest) by apply (read_bytes_app (u16_le n)).
  unfold dret. rewrite le_value_u16_le by exact Hn. reflexivity.
Qed.

Lemma read_vec_u8_app (bs rest : bytes) :
  u32_range (Z.of_nat (length bs)) -> read_vec_u8 (borsh_vec_u8 bs ++ rest) = Some (bs, rest).
Proof.
  intros Hn. unfold read_vec_u8, borsh_vec_u8. rewrite <- app_assoc.
  rewrite (dbind_some _ _ _ _ _ (read_u32_app _ _ Hn)).
  rewrite Nat2Z.id. apply read_bytes_app.
Qed.

Lemma read_n_app {A} (enc : A -> bytes) (d : Dec A) (f : A -> A) (P : A -> Prop) :
  (forall x rest, P x -> d (enc x ++ rest) = Some (f x, rest)) ->
  forall xs rest, Forall P xs ->
  read_n (length xs) d (flat_map enc xs ++ rest) = Some (map f xs, rest).
Proof.
  intros Hd xs. induction xs as [|x xs IH]; intros rest HP.
  - reflexivity.
  - inversion HP; subst. simpl. rewrite <- app_assoc.
    rewrite (dbind_some _ _ _ _ _ (Hd x _ ltac:(assumption))).
    rewrite (dbind_some _ _ _ _ _ (IH rest ltac:(assumption))). reflexivity.
Qed.

Lemma ExportEntry_roundtrip (e : ExportEntry) (rest : bytes) :
  ExportEntry_wf e ->
  ExportEntry_deserialize (ExportEntry_serialize e ++ rest) = Some (ExportEntry_bounded e, rest).
Proof.
  intros [Hid Hlen]. unfold ExportEntry_deserialize, ExportEntry_serialize.
  rewrite <- app_assoc.
  rewrite (dbind_some _ _ _ _ _ (read_u32_app _ _ Hid)).
  rewrite (dbind_some _ _ _ _ _ (read_vec_u8_app _ _ Hlen)). reflexivity.
Qed.

Lemma ExportContainer_roundtrip (c : ExportContainer) (rest : bytes) :
  ExportContainer_wf c ->
  ExportContainer_deserialize (ExportContainer_serialize c ++ rest) =
  Some (ExportContainer_bounded c, rest).
Proof.
  intros (Hid & Hcp & Hn & Hes). unfold ExportContainer_deserialize, ExportContainer_serialize.
  rewrite <- !app_assoc.
  rewrite (dbind_some _ _ _ _ _ (read_u16_app _ _ Hid)).
  rewrite (dbind_some _ _ _ _ _ (read_vec_u8_app _ _ Hcp)).
  rewrite (dbind_some _ _ _ _ _ (read_u32_app _ _ Hn)).
  rewrite Nat2Z.id.
  rewrite (dbind_some _ _ _ _ _
             (read_n_app _ _ _ _ ExportEntry_roundtrip (entries c) rest Hes)).
  reflexivity.
Qed.

(** X2 ([state.rs], Borsh of [ExportState]): decoding the encoding of a well-formed export
    state returns it with every list cut to its bound, and leaves the following bytes. *)
Theorem ExportState_borsh_roundtrip (s : ExportState) (rest : bytes) :
  ExportState_wf s ->
  ExportState_deserialize (ExportState_serialize s ++ rest) = Some (ExportState_bounded s, rest).
Proof.
  intros (Hn & Hcs). unfold ExportState_deserialize, ExportState_serialize.
  rewrite <- !app_assoc.
  rewrite (dbind_some _ _ _ _ _ (read_u32_app _ _ Hn)).
  rewrite Nat2Z.id.
  rewrite (dbind_some _ _ _ _ _
             (read_n_app _ _ _ _ ExportContainer_roundtrip (containers s) rest Hcs)).
  reflexivity.
Qed.

Lemma MohoState_serialize_layout (s : MohoState) :
  MohoState_serialize s =
  inner_state s ++ borsh_vec_u8 (next_predicate s) ++ ExportState_serialize (export_state s).
Proof. reflexivity. Qed.

Lemma MohoState_roundtrip_gen (s : MohoState) (rest : bytes) :
  MohoState_wf s ->
  MohoState_deserialize (MohoState_serialize s ++ rest) = Some (MohoState_bounded s, rest).
Proof.
  intros (Hin & Hp & Hn & Hcs). rewrite MohoState_serialize_layout.
  unfold MohoState_deserialize, ExportState_serialize.
  rewrite <- !app_assoc.
  rewrite <- Hin.
  rewrite (dbind_some _ _ _ _ _ (read_bytes_app _ _)).
  rewrite (dbind_some _ _ _ _ _ (read_vec_u8_app _ _ Hp)).
  rewrite (dbind_some _ _ _ _ _ (read_u32_app _ _ Hn)).
  rewrite Nat2Z.id.
  rewrite (dbind_some _ _ _ _ _
             (read_n_app _ _ _ _ ExportContainer_roundtrip (containers (export_state s)) rest Hcs)).
  reflexivity.
Qed.

(** X1 ([state.rs], Borsh of [MohoState]): decoding the encoding of a well-formed state
    returns it with every list cut to its bound, and leaves the following bytes. *)
Theorem MohoState_borsh_roundtrip (s : MohoState) (rest : bytes) :
  MohoState_wf s ->
  MohoState_deserialize (MohoState_serialize s ++ rest) = Some (MohoState_bounded s, rest).
Proof. apply MohoState_roundtrip_gen. Qed.

Ltac prove_wf :=
  unfold MohoState_wf, ExportState_wf, ExportContainer_wf, ExportEntry_wf, u32_range;
  cbn; repeat split; repeat constructor; cbn; lia.

Lemma MohoState_borsh_roundtrip_witness :
  MohoState_wf toy_state /\
  MohoState_deserialize (MohoState_serialize toy_state ++ [7]) =
  Some (MohoState_bounded toy_state, [7]).
Proof. split; [prove_wf|apply MohoState_borsh_roundtrip; prove_wf]. Defined.

Lemma ExportState_borsh_roundtrip_witness :
  ExportState_wf toy_export /\
  ExportState_deserialize (ExportState_serialize toy_export ++ [7]) =
  Some (ExportState_bounded toy_export, [7]).
Proof.
  assert (W : ExportState_wf toy_export) by prove_wf.
  split; [exact W|apply ExportState_borsh_roundtrip; exact W].
Defined.

Lemma dret_stable {A} (a : A) : ext_stable (dret a).
Proof. intros bs a' r x Hd. unfold dret in *. injection Hd as <- <-. reflexivity. Qed.

Lemma dbind_stable {A B} (d : Dec A) (k : A -> Dec B) :
  ext_stable d -> (forall a, ext_stable (k a)) -> ext_stable (dbind d k).
Proof.
  intros Hd Hk bs b r x H. unfold dbind in *.
  destruct (d bs) as [[a r0]|] eqn:E; [|discriminate].
  rewrite (Hd _ _ _ x E). apply Hk, H.
Qed.

Lemma read_bytes_stable (n : nat) : ext_stable (read_bytes n).
Proof.
  intros bs a r x H. unfold read_bytes in *.
  destruct (Nat.leb_spec n (length bs)) as [Hle|]; [|discriminate].
  injection H as <- <-. rewrite length_app.
  replace (Nat.leb n (length bs + length x)) with true by (symmetry; apply Nat.leb_le; lia).
  rewrite firstn_app, skipn_app.
  replace (n - length bs)%nat with O by lia. rewrite app_nil_r.
  replace (n - length bs)%nat with O by lia. reflexivity.
Qed.

Lemma read_n_stable {A} (n : nat) (d : Dec A) : ext_stable d -> ext_stable (read_n n d).
Proof.
  intros Hd. induction n as [|n IH]; simpl.
  - apply dret_stable.
  - apply dbind_stable; [exact Hd|]. intros a.
    apply dbind_stable; [exact IH|]. intros. apply dret_stable.
Qed.

Ltac dec_stable :=
  repeat first
    [ apply dret_stable
    | apply read_bytes_stable
    | apply read_n_stable
    | apply dbind_stable
    | intro
    | unfold read_u16, read_u32, read_vec_u8 ].

Lemma MohoState_deserialize_stable : ext_stable MohoState_deserialize.
Proof. unfold MohoState_deserialize. dec_stable. Qed.

(** X4 ([state.rs], Borsh of [MohoState]): every strict prefix of the encoding of a
    well-formed state fails to decode (a read error, not another state). *)
Theorem MohoState_truncated_fails (s : MohoState) (k : nat) :
  MohoState_wf s -> (k < length (MohoState_serialize s))%nat ->
  MohoState_deserialize (firstn k (MohoState_serialize s)) = None.
Proof.
  intros Hwf Hk.
  destruct (MohoState_deserialize (firstn k (MohoState_serialize s))) as [[a r]|] eqn:E;
    [|reflexivity].
  exfalso.
  apply (MohoState_deserialize_stable _ _ _ (skipn k (MohoState_serialize s))) in E.
  rewrite firstn_skipn in E.
  pose proof (MohoState_roundtrip_gen s [] Hwf) as R. rewrite app_nil_r in R.
  rewrite R in E. injection E as _ Hr.
  assert (Hl : length (r ++ skipn k (MohoState_serialize s)) = O) by (rewrite <- Hr; reflexivity).
  rewrite length_app, length_skipn in Hl. lia.
Qed.

(** *** Export-state structure checks ([runtime.rs], [state.rs]) *)

Lemma negb_geb_lt (x y : Z) : negb (x >=? y) = true <-> x < y.
Proof. rewrite negb_true_iff, Z.geb_leb, Z.leb_gt. reflexivity. Qed.

Lemma windows2_all_sorted {A} (key : A -> Z) (xs : list A) :
  windows2_all (fun a b => negb (key a >=? key b)) xs = true <->
  StronglySorted Z.lt (map key xs).
Proof.
  split.
  - intros Hw. apply Sorted_StronglySorted; [intros x y z; lia|].
    induction xs as [|a xs IH]; simpl; [constructor|].
    destruct xs as [|b xs]; [repeat constructor|].
    simpl in Hw. apply andb_prop in Hw as [Hab Hw].
    constructor; [apply IH, Hw|]. simpl. constructor.
    apply negb_geb_lt in Hab. lia.
  - intros Hs. apply StronglySorted_Sorted in Hs.
    induction xs as [|a xs IH]; simpl; [reflexivity|].
    destruct xs as [|b xs]; [reflexivity|].
    simpl in Hs. inversion Hs as [|? ? Hs' Hhd]; subst.
    inversion Hhd; subst.
    apply andb_true_intro; split.
    + apply negb_geb_lt. assumption.
    + apply IH. exact Hs'.
Qed.

Lemma forallb_payload (es : list ExportEntry) :
  forallb (fun e => negb (Nat.ltb MAX_PAYLOAD_SIZE (length (payload e)))) es = true <->
  Forall (fun e => (length (payload e) <= MAX_PAYLOAD_SIZE)%nat) es.
Proof.
  rewrite forallb_forall, Forall_forall. split; intros Hf e He; specialize (Hf e He).
  - apply negb_true_iff, Nat.ltb_ge in Hf. exact Hf.
  - apply negb_true_iff, Nat.ltb_ge. exact Hf.
Qed.

Lemma check_export_cont_structure_iff (c : ExportContainer) :
  check_export_cont_structure c = true <->
  (length (entries c) <= MAX_EXPORT_ENTRIES)%nat /\
  (length (common_payload c) <= MAX_PAYLOAD_SIZE)%nat /\
  StronglySorted Z.lt (map entry_id (entries c)) /\
  Forall (fun e => (length (payload e) <= MAX_PAYLOAD_SIZE)%nat) (entries c).
Proof.
  unfold check_export_cont_structure.
  rewrite <- windows2_all_sorted, <- forallb_payload.
  destruct (Nat.ltb_spec MAX_EXPORT_ENTRIES (length (entries c)));
  destruct (Nat.ltb_spec MAX_PAYLOAD_SIZE (length (common_payload c)));
  destruct (windows2_all _ (entries c)); simpl;
  split; intuition (try lia; try discriminate).
Qed.

Lemma forallb_Forall {A} (f : A -> bool) (l : list A) :
  forallb f l = true <-> Forall (fun x => f x = true) l.
Proof. rewrite forallb_forall, Forall_forall. reflexivity. Qed.

Lemma check_export_state_structure_iff (s : ExportState) :
  check_export_state_structure s = true <->
  (length (containers s) <= MAX_EXPORT_CONTAINERS)%nat /\
  StronglySorted Z.lt (map container_id (containers s)) /\
  Forall (fun c => check_export_cont_structure c = true) (containers s).
Proof.
  unfold check_export_state_structure.
  rewrite <- windows2_all_sorted, <- forallb_Forall.
  destruct (Nat.ltb_spec MAX_EXPORT_CONTAINERS (length (containers s)));
  destruct (windows2_all _ (containers s)); simpl;
  split; intuition (try lia; try discriminate).
Qed.


Lemma firstn_all_le {A} (n : nat) (l : list A) : (length l <= n)%nat -> firstn n l = l.
Proof. intros H. apply firstn_all2. exact H. Qed.

Lemma ExportContainer_bounded_id (c : ExportContainer) :
  check_export_cont_structure c = true -> ExportContainer_bounded c = c.
Proof.
  intros Hc. apply check_export_cont_structure_iff in Hc as (He & Hcp & _ & Hp).
  destruct c as [cid cp es]; unfold ExportContainer_bounded; cbn [entries common_payload container_id] in *.
  rewrite firstn_all_le by exact Hcp.
  rewrite firstn_all_le by (rewrite length_map; exact He).
  f_equal. clear He. induction Hp as [|[id pl] es Hpl _ IH]; [reflexivity|].
  cbn [map]. rewrite IH. unfold ExportEntry_bounded. cbn [payload entry_id] in *.
  rewrite firstn_all_le by exact Hpl. reflexivity.
Qed.

Lemma ExportState_bounded_id (s : ExportState) :
  check_export_state_structure s = true -> ExportState_bounded s = s.
Proof.
  intros Hs. apply check_export_state_structure_iff in Hs as (Hl & _ & Hc).
  destruct s as [cs]; unfold ExportState_bounded; cbn [containers] in *.
  rewrite firstn_all_le by (rewrite length_map; exact Hl).
  f_equal. clear Hl. induction Hc as [|c cs Hc _ IH]; [reflexivity|].
  cbn [map]. rewrite IH, ExportContainer_bounded_id by exact Hc. reflexivity.
Qed.

Lemma StronglySorted_snoc (l : list Z) (x : Z) :
  StronglySorted Z.lt l -> Forall (fun y => y < x) l -> StronglySorted Z.lt (l ++ [x]).
Proof.
  induction 1 as [|a l Hs IH Hall]; intros Hx; simpl.
  - repeat constructor.
  - inversion Hx; subst. constructor; [apply IH; assumption|].
    apply Forall_app; split; [exact Hall|]. constructor; [assumption|constructor].
Qed.

Lemma ExportContainer_add_entry_structure (c c' : ExportContainer) (e : ExportEntry) :
  check_export_cont_structure c = true ->
  (length (payload e) <= MAX_PAYLOAD_SIZE)%nat ->
  Forall (fun x => entry_id x < entry_id e) (entries c) ->
  ExportContainer_add_entry c e = Some c' ->
  check_export_cont_structure c' = true /\ container_id c' = container_id c.
Proof.
  intros Hc Hp Hlt Hadd. unfold ExportContainer_add_entry in Hadd.
  destruct (Nat.ltb_spec (length (entries c)) MAX_EXPORT_ENTRIES) as [Hlen|]; [|discriminate].
  injection Hadd as <-. split; [|reflexivity].
  apply check_export_cont_structure_iff in Hc as (He & Hcp & Hs & Hps).
  apply check_export_cont_structure_iff; cbn [entries common_payload].
  rewrite length_app, map_app. cbn [length map]. repeat split.
  - lia.
  - exact Hcp.
  - apply StronglySorted_snoc; [exact Hs|]. rewrite Forall_map. exact Hlt.
  - apply Forall_app; split; [exact Hps|]. constructor; [exact Hp|constructor].
Qed.

Lemma add_entry_go_structure (cs cs' : list ExportContainer) (cid : Z) (e : ExportEntry) :
  Forall (fun c => check_export_cont_structure c = true) cs ->
  (length (payload e) <= MAX_PAYLOAD_SIZE)%nat ->
  (forall c, In c cs -> container_id c = cid ->
     Forall (fun x => entry_id x < entry_id e) (entries c)) ->
  add_entry_go cs cid e = Some cs' ->
  Forall (fun c => check_export_cont_structure c = true) cs' /\
  map container_id cs' = map container_id cs.
Proof.
  revert cs'. induction cs as [|c cs IH]; intros cs' Hall Hp Hlt Hgo; simpl in Hgo.
  - injection Hgo as <-. split; [constructor|reflexivity].
  - inversion Hall as [|? ? Hc Hcs]; subst.
    destruct (Z.eqb_spec (container_id c) cid) as [Hid|Hid].
    + destruct (ExportContainer_add_entry c e) as [c'|] eqn:Hadd; [|discriminate].
      injection Hgo as <-.
      destruct (ExportContainer_add_entry_structure c c' e Hc Hp
                  (Hlt c (or_introl eq_refl) Hid) Hadd) as [Hc' Hid'].
      split; [constructor; assumption|]. simpl. rewrite Hid'. reflexivity.
    + destruct (add_entry_go cs cid e) as [rest|] eqn:Hrest; [|discriminate].
      injection Hgo as <-.
      destruct (IH rest Hcs Hp (fun c0 H0 => Hlt c0 (or_intror H0)) eq_refl) as [Hr Hm].
      split; [constructor; assumption|]. simpl. rewrite Hm. reflexivity.
Qed.


(** X3 ([state.rs], Borsh of [MohoState]): a well-formed state whose export state passes
    [check_export_state_structure] and whose predicate fits in [MAX_PREDICATE_SIZE] bytes
    decodes back to itself. *)
Theorem MohoState_borsh_roundtrip_exact (s : MohoState) (rest : bytes) :
  MohoState_wf s -> check_export_state_structure (export_state s) = true ->
  (length (next_predicate s) <= MAX_PREDICATE_SIZE)%nat ->
  MohoState_deserialize (MohoState_serialize s ++ rest) = Some (s, rest).
Proof.
  intros Hwf Hs Hp. rewrite (MohoState_roundtrip_gen s rest Hwf). f_equal. f_equal.
  destruct s as [inner pred es]; unfold MohoState_bounded;
    cbn [inner_state next_predicate export_state] in *.
  rewrite firstn_all_le by exact Hp. rewrite ExportState_bounded_id by exact Hs.
  reflexivity.
Qed.

Lemma MohoState_borsh_roundtrip_exact_witness :
  MohoState_wf toy_state /\ check_export_state_structure (export_state toy_state) = true /\
  (length (next_predicate toy_state) <= MAX_PREDICATE_SIZE)%nat /\
  MohoState_deserialize (MohoState_serialize toy_state) = Some (toy_state, []).
Proof.
  assert (W : MohoState_wf toy_state) by prove_wf.
  assert (Hs : check_export_state_structure (export_state toy_state) = true) by reflexivity.
  assert (Hp : (length (next_predicate toy_state) <= MAX_PREDICATE_SIZE)%nat)
    by (cbn; unfold MAX_PREDICATE_SIZE; lia).
  split; [exact W|split; [exact Hs|split; [exact Hp|]]].
  rewrite <- (app_nil_r (MohoState_serialize toy_state)).
  apply MohoState_borsh_roundtrip_exact; assumption.
Defined.

Lemma MohoState_truncated_fails_witness :
  MohoState_wf toy_state /\ (10 < length (MohoState_serialize toy_state))%nat /\
  MohoState_deserialize (firstn 10 (MohoState_serialize toy_state)) = None.
Proof.
  assert (W : MohoState_wf toy_state) by prove_wf.
  assert (Hk : (10 < length (MohoState_serialize toy_state))%nat) by (vm_compute; lia).
  split; [exact W|split; [exact Hk|apply MohoState_truncated_fails; assumption]].
Defined.

(** X5 ([check_export_cont_structure]): a container passes the check exactly when it has
    at most [MAX_EXPORT_ENTRIES] entries, a common payload of at most [MAX_PAYLOAD_SIZE]
    bytes, entry ids in strictly increasing order and every payload within
    [MAX_PAYLOAD_SIZE] bytes. *)
Theorem check_export_cont_structure_spec (c : ExportContainer) :
  check_export_cont_structure c = true <->
  (length (entries c) <= MAX_EXPORT_ENTRIES)%nat /\
  (length (common_payload c) <= MAX_PAYLOAD_SIZE)%nat /\
  StronglySorted Z.lt (map entry_id (entries c)) /\
  Forall (fun e => (length (payload e) <= MAX_PAYLOAD_SIZE)%nat) (entries c).
Proof. apply check_export_cont_structure_iff. Qed.

(** X6 ([check_export_state_structure]): an export state passes the check exactly when it
    has at most [MAX_EXPORT_CONTAINERS] containers, container ids in strictly increasing
    order and every container passing [check_export_cont_structure]. *)
Theorem check_export_state_structure_spec (s : ExportState) :
  check_export_state_structure s = true <->
  (length (containers s) <= MAX_EXPORT_CONTAINERS)%nat /\
  StronglySorted Z.lt (map container_id (containers s)) /\
  Forall (fun c => check_export_cont_structure c = true) (containers s).
Proof. apply check_export_state_structure_iff. Qed.


(** X8 ([ExportState::add_entry], [check_export_state_structure]): adding to a structurally
    valid export state an entry whose payload fits and whose id is above every id of the
    target container gives, when it does not panic, a structurally valid export state. *)
Theorem add_entry_preserves_structure (s s' : ExportState) (cid : Z) (e : ExportEntry) :
  check_export_state_structure s = true ->
  (length (payload e) <= MAX_PAYLOAD_SIZE)%nat ->
  (forall c, In c (containers s) -> container_id c = cid ->
     Forall (fun x => entry_id x < entry_id e) (entries c)) ->
  ExportState_add_entry s cid e = Some s' ->
  check_export_state_structure s' = true.
Proof.
  intros Hs Hp Hlt Hadd. unfold ExportState_add_entry in Hadd.
  destruct (add_entry_go (containers s) cid e) as [cs'|] eqn:Hgo; [|discriminate].
  injection Hadd as <-.
  apply check_export_state_structure_iff in Hs as (Hl & Hsort & Hcs).
  destruct (add_entry_go_structure _ _ _ _ Hcs Hp Hlt Hgo) as [Hcs' Hm].
  apply check_export_state_structure_iff; cbn [containers].
  rewrite Hm. split; [|split; assumption].
  rewrite <- (length_map container_id cs'), Hm, length_map. exact Hl.
Qed.

Lemma add_entry_preserves_structure_witness :
  check_export_state_structure toy_export = true /\
  check_export_state_structure
    {| containers := [ {| container_id := 3; common_payload := [1; 2];
                          entries := [ {| entry_id := 0; payload := [9] |};
                                       {| entry_id := 1; payload := [5] |} ] |} ] |} = true.
Proof.
  split; [reflexivity|].
  apply (add_entry_preserves_structure toy_export _ 3 {| entry_id := 1; payload := [5] |}).
  - reflexivity.
  - cbn. unfold MAX_PAYLOAD_SIZE. lia.
  - intros c Hc _. destruct Hc as [<-|[]]. repeat constructor.
  - reflexivity.
Defined.

(** *** Field-inclusion proofs ([ssz_merkle_utils.rs], [statements.rs]) *)

Section MerkleFacts.
Variable H : bytes32 -> bytes32 -> bytes32.

Lemma next_level_nth (l : list bytes32) (q : nat) :
  (2 * q + 1 < length l)%nat ->
  nth q (next_level H l) zero_chunk = H (nth (2 * q) l zero_chunk) (nth (2 * q + 1) l zero_chunk).
Proof.
  revert l. induction q as [|q IH]; intros l Hl.
  - destruct l as [|a [|b rest]]; simpl in Hl; try lia. reflexivity.
  - destruct l as [|a [|b rest]]; simpl in Hl; try lia. simpl.
    rewrite IH by lia. replace (q + S (q + 0) + 1)%nat with (S (2 * q + 1)) by lia.
    replace (q + S (q + 0))%nat with (S (2 * q)) by lia. reflexivity.
Qed.

Lemma next_level_pair_up (z : bytes32) (l : list bytes32) (m : nat) :
  length l = (2 * m)%nat -> next_level H l = pair_up H z l /\ length (next_level H l) = m.
Proof.
  revert l. induction m as [|m IH]; intros l Hl.
  - destruct l; [split; reflexivity|simpl in Hl; lia].
  - destruct l as [|a [|b rest]]; simpl in Hl; try lia.
    destruct (IH rest ltac:(lia)) as [E L]. simpl. rewrite E. split; [reflexivity|].
    simpl. rewrite <- E, L. reflexivity.
Qed.

Lemma pair_up_pad (z : bytes32) (l : list bytes32) (m : nat) :
  exists k, pair_up H z (l ++ repeat z m) = pair_up H z l ++ repeat (H z z) k.
Proof.
  revert m. induction l as [l IHl] using (well_founded_induction
    (well_founded_ltof _ (@length bytes32))); intros m.
  destruct l as [|a [|b rest]].
  - simpl. revert m. induction m as [m IHm] using (well_founded_induction
      (well_founded_ltof _ (fun n => n))).
    destruct m as [|[|m]].
    + exists O. reflexivity.
    + exists 1%nat. reflexivity.
    + destruct (IHm m ltac:(unfold ltof; lia)) as [k Hk]. exists (S k). simpl.
      simpl in Hk. rewrite Hk. reflexivity.
  - destruct m as [|m].
    + exists O. simpl. reflexivity.
    + simpl. destruct (IHl [] ltac:(unfold ltof; simpl; lia) m) as [k Hk].
      simpl in Hk. exists k. rewrite Hk. reflexivity.
  - destruct (IHl rest ltac:(unfold ltof; simpl; lia) m) as [k Hk].
    exists k. simpl. rewrite Hk. reflexivity.
Qed.

Lemma merkleize_go_pad (d lvl : nat) (l : list bytes32) (m : nat) :
  merkleize_go H lvl d (l ++ repeat (zero_hash H lvl) m) = merkleize_go H lvl d l.
Proof.
  revert lvl l m. induction d as [|d IH]; intros lvl l m; simpl.
  - destruct l as [|a l]; [destruct m; reflexivity|reflexivity].
  - destruct (pair_up_pad (zero_hash H lvl) l m) as [k Hk]. rewrite Hk.
    change (H (zero_hash H lvl) (zero_hash H lvl)) with (zero_hash H (S lvl)).
    apply IH.
Qed.

Lemma even_of_nat (n : nat) : Z.even (Z.of_nat n) = Nat.even n.
Proof.
  induction n as [n IH] using (well_founded_induction
    (well_founded_ltof _ (fun n => n))).
  destruct n as [|[|n]]; [reflexivity|reflexivity|].
  replace (Z.of_nat (S (S n))) with (Z.of_nat n + 2) by lia.
  rewrite Z.even_add. simpl Nat.even. rewrite IH by (unfold ltof; lia).
  destruct (Nat.even n); reflexivity.
Qed.

Lemma fold_build_branch (k : nat) : forall lvl fuel (l : list bytes32) (idx : nat),
  length l = (2 ^ k)%nat -> (idx < 2 ^ k)%nat -> (k <= fuel)%nat ->
  fold_branch H (nth idx l zero_chunk) (Z.of_nat idx) (build_branch_go H fuel l idx) =
  merkleize_go H lvl k l.
Proof.
  induction k as [|k IH]; intros lvl fuel l idx Hl Hidx Hfuel.
  - simpl in Hl, Hidx. destruct l as [|a [|b rest]]; simpl in Hl; try lia.
    replace idx with O by lia.
    destruct fuel; reflexivity.
  - destruct fuel as [|fuel]; [lia|].
    assert (Hpow : (2 ^ S k = 2 * 2 ^ k)%nat) by reflexivity.
    destruct (next_level_pair_up (zero_hash H lvl) l (2 ^ k) ltac:(lia)) as [E L].
    cbn [build_branch_go].
    replace (Nat.ltb 1 (length l)) with true
      by (symmetry; apply Nat.ltb_lt; pose proof (Nat.pow_nonzero 2 k); lia).
    cbn [fold_branch merkleize_go]. rewrite <- E.
    rewrite even_of_nat.
    replace (Z.of_nat idx / 2) with (Z.of_nat (Nat.div idx 2))
      by (rewrite Nat2Z.inj_div; reflexivity).
    rewrite <- (IH (S lvl) fuel (next_level H l) (Nat.div idx 2)) by
      (try assumption; try lia; apply Nat.Div0.div_lt_upper_bound; lia).
    f_equal.
    destruct (Nat.even idx) eqn:Hev.
    + apply Nat.even_spec in Hev as [q ->].
      rewrite (Nat.mul_comm 2 q), Nat.div_mul by lia.
      rewrite next_level_nth by lia. rewrite (Nat.mul_comm q 2).
      replace (S (2 * q)) with (2 * q + 1)%nat by lia. reflexivity.
    + assert (Hodd : Nat.odd idx = true) by (rewrite <- Nat.negb_even, Hev; reflexivity).
      apply Nat.odd_spec in Hodd as [q ->].
      replace ((2 * q + 1) / 2)%nat with q.
      2:{ rewrite (Nat.mul_comm 2 q). rewrite Nat.div_add_l by lia. change (1 / 2)%nat with O. lia. }
      rewrite next_level_nth by lia.
      replace (Nat.pred (2 * q + 1)) with (2 * q)%nat by lia. reflexivity.
Qed.

Lemma pad_length (n : nat) : (n <= 2 ^ Nat.log2_up n)%nat.
Proof.
  destruct (Nat.lt_ge_cases 1 n) as [Hn|Hn].
  - apply Nat.log2_up_spec. exact Hn.
  - destruct n as [|[|]]; simpl; lia.
Qed.

Lemma generate_verify_with (leaves : list bytes32) (idx : nat) :
  (idx < length leaves)%nat -> (idx < 256)%nat ->
  fold_branch H (nth idx leaves zero_chunk) (leaf_index (generate_proof_with H leaves idx))
    (branch (generate_proof_with H leaves idx)) =
  merkleize H (Nat.log2_up (length leaves)) leaves.
Proof.
  intros Hidx H256. unfold generate_proof_with, build_branch, merkleize. cbn [leaf_index branch].
  rewrite Z.mod_small by lia.
  set (n := length leaves). set (k := Nat.log2_up n).
  assert (Hn : (n <= 2 ^ k)%nat) by apply pad_length.
  set (lvl := leaves ++ repeat zero_chunk (2 ^ k - n)).
  assert (Hlen : length lvl = (2 ^ k)%nat) by (unfold lvl; rewrite length_app, repeat_length; lia).
  replace (nth idx leaves zero_chunk) with (nth idx lvl zero_chunk)
    by (unfold lvl; apply app_nth1; exact Hidx).
  rewrite (fold_build_branch k O (length lvl) lvl idx Hlen) by
    (try lia; rewrite Hlen; apply Nat.lt_le_incl, Nat.pow_gt_lin_r; lia).
  unfold lvl. change zero_chunk with (zero_hash H O). apply merkleize_go_pad.
Qed.

End MerkleFacts.

(** X9 ([SszFieldMerkle::generate_proof], [SszFieldMerkle::verify_proof]): for any list of
    leaves and any index below both its length and 256, the generated proof verifies the
    leaf at that index against the SSZ merkle root of the leaves (depth [log2_up] of their
    number). *)
Theorem verify_generated_proof (leaves : list bytes32) (idx : nat) :
  (idx < length leaves)%nat -> (idx < 256)%nat ->
  verify_proof (merkleize hash_internal (Nat.log2_up (length leaves)) leaves)
    (generate_proof leaves idx) (nth idx leaves zero_chunk) = true.
Proof.
  intros Hidx H256. unfold verify_proof, verify_proof_with, generate_proof.
  rewrite generate_verify_with by assumption. apply bytes_eqb_refl.
Qed.

Lemma verify_generated_proof_witness :
  (2 < length sample_leaves)%nat /\ (2 < 256)%nat /\
  verify_proof (merkleize hash_internal (Nat.log2_up (length sample_leaves)) sample_leaves)
    (generate_proof sample_leaves 2) (nth 2 sample_leaves zero_chunk) = true.
Proof.
  split; [cbn; lia|split; [lia|]].
  apply (verify_generated_proof sample_leaves 2); cbn; lia.
Defined.

Lemma build_branch_go_length (H : bytes32 -> bytes32 -> bytes32) (k : nat) :
  forall fuel (l : list bytes32) (idx : nat),
  length l = (2 ^ k)%nat -> (k <= fuel)%nat -> length (build_branch_go H fuel l idx) = k.
Proof.
  induction k as [|k IH]; intros fuel l idx Hl Hfuel.
  - destruct fuel; [reflexivity|]. simpl. rewrite Hl. reflexivity.
  - destruct fuel as [|fuel]; [lia|].
    destruct (next_level_pair_up H zero_chunk l (2 ^ k) ltac:(simpl in Hl; lia)) as [_ L].
    cbn [build_branch_go].
    replace (Nat.ltb 1 (length l)) with true
      by (symmetry; apply Nat.ltb_lt; pose proof (Nat.pow_nonzero 2 k); simpl in Hl; lia).
    cbn [length]. rewrite IH by (assumption || lia). reflexivity.
Qed.

(** X10 ([SszFieldMerkle::generate_proof]): a generated proof has one sibling per tree
    level: [log2_up] of the number of leaves, so none for zero or one leaf. *)
Theorem generate_proof_branch_length (leaves : list bytes32) (idx : nat) :
  length (branch (generate_proof leaves idx)) = Nat.log2_up (length leaves).
Proof.
  unfold generate_proof, generate_proof_with, build_branch. cbn [branch].
  pose proof (pad_length (length leaves)).
  apply build_branch_go_length.
  - rewrite length_app, repeat_length. lia.
  - rewrite length_app, repeat_length.
    apply Nat.lt_le_incl. replace (length leaves + _)%nat with (2 ^ Nat.log2_up (length leaves))%nat by lia.
    apply Nat.pow_gt_lin_r. lia.
Qed.

Section FoldFacts.
Variable H : bytes32 -> bytes32 -> bytes32.

Lemma land1_even (idx : Z) : (Z.land idx 1 =? 1) = negb (Z.even idx).
Proof.
  change 1 with (Z.ones 1) at 1. rewrite Z.land_ones by lia. change (2 ^ 1) with 2.
  rewrite Zmod_even. destruct (Z.even idx); reflexivity.
Qed.

Lemma compute_root_go_fold (cur : bytes32) (idx : Z) (sibs : list bytes32) :
  compute_root_no_prefix_go H cur idx sibs = fold_branch H cur idx sibs.
Proof.
  revert cur idx. induction sibs as [|s sibs IH]; intros cur idx; [reflexivity|].
  simpl. rewrite land1_even, Z.shiftr_div_pow2 by lia. change (2 ^ 1) with 2.
  destruct (Z.even idx); simpl; apply IH.
Qed.

Lemma fold_branch_low_bits (cur : bytes32) (idx : Z) (sibs : list bytes32) :
  fold_branch H cur idx sibs = fold_branch H cur (idx mod 2 ^ Z.of_nat (length sibs)) sibs.
Proof.
  revert cur idx. induction sibs as [|s sibs IH]; intros cur idx; [reflexivity|].
  cbn [fold_branch length].
  set (m := 2 ^ Z.of_nat (length sibs)).
  assert (Hm : 0 < m) by (apply Z.pow_pos_nonneg; lia).
  replace (2 ^ Z.of_nat (S (length sibs))) with (2 * m)
    by (unfold m; rewrite Nat2Z.inj_succ, Z.pow_succ_r by lia; reflexivity).
  rewrite Z.rem_mul_r by lia.
  assert (Hev : Z.even (idx mod 2 + 2 * (idx / 2 mod m)) = Z.even idx).
  { rewrite Z.even_add_mul_2. rewrite Zmod_even. destruct (Z.even idx); reflexivity. }
  assert (Hdiv : (idx mod 2 + 2 * (idx / 2 mod m)) / 2 = idx / 2 mod m).
  { replace (idx mod 2 + 2 * (idx / 2 mod m)) with ((idx / 2 mod m) * 2 + idx mod 2) by lia.
    rewrite Z.div_add_l by lia.
    rewrite (Z.div_small (idx mod 2) 2) by (pose proof (Z.mod_pos_bound idx 2); lia). lia. }
  rewrite Hev, Hdiv, <- IH. reflexivity.
Qed.

End FoldFacts.

(** X11 ([compute_root_no_prefix] of [statements.rs], [SszFieldMerkle::verify_proof]): the
    bit-flag fold of the driver rebuilds the same root as the verifier's even/odd fold, so
    [verify_proof] accepts exactly when [compute_root_no_prefix] yields the root. *)
Theorem compute_root_matches_verify_proof (root : bytes32) (p : SszLeafInclusionProof)
    (leaf : bytes32) :
  verify_proof root p leaf = bytes_eqb (compute_root_no_prefix p leaf) root.
Proof.
  unfold verify_proof, verify_proof_with, compute_root_no_prefix, compute_root_no_prefix_with.
  rewrite compute_root_go_fold. reflexivity.
Qed.

(** X12 ([SszFieldMerkle::verify_proof]): only the low [length branch] bits of the leaf index
    matter: replacing the index by its remainder modulo [2 ^ length branch] does not change
    the verdict. *)
Theorem verify_proof_low_bits (root : bytes32) (p : SszLeafInclusionProof) (leaf : bytes32) :
  verify_proof root p leaf =
  verify_proof root {| branch := branch p;
                       leaf_index := leaf_index p mod 2 ^ Z.of_nat (length (branch p)) |} leaf.
Proof.
  unfold verify_proof, verify_proof_with. cbn [branch leaf_index].
  rewrite <- fold_branch_low_bits. reflexivity.
Qed.

(** *** Runtime transition, driver errors, no-op chaining *)

(** X13 ([compute_transition], [compute_wrapping_moho_state]): the transition succeeds
    exactly when the pre-state commitment matches the moho pre-state, the input's parent is
    the pre-state reference and the exported state passes the structure check; the result
    wraps the post state's commitment, the next predicate and the exported state. *)
Theorem compute_transition_spec {State StepInput StepOutput : Type}
    (P : MohoProgram State StepInput StepOutput) (pre_state_ref : bytes32)
    (pre_moho_state post : MohoState) (pre_inner_state : State) (input : StepInput) :
  compute_transition P pre_state_ref pre_moho_state pre_inner_state input = Some post <->
  compute_state_commitment P pre_inner_state = inner_state pre_moho_state /\
  extract_prev_reference P input = pre_state_ref /\
  check_export_state_structure
    (extract_export_state P (snd (process_transition P pre_inner_state input))) = true /\
  post = MohoState_new
           (compute_state_commitment P (fst (process_transition P pre_inner_state input)))
           (extract_next_vk P (snd (process_transition P pre_inner_state input)))
           (extract_export_state P (snd (process_transition P pre_inner_state input))).
Proof.
  unfold compute_transition, compute_wrapping_moho_state.
  destruct (bytes_eqb (compute_state_commitment P pre_inner_state) (inner_state pre_moho_state))
    eqn:E1; [apply bytes_eqb_eq in E1|];
  [|split; [discriminate|intros (E & _); rewrite E, bytes_eqb_refl in E1; discriminate]].
  destruct (bytes_eqb (extract_prev_reference P input) pre_state_ref)
    eqn:E2; [apply bytes_eqb_eq in E2|];
  [|split; [discriminate|intros (_ & E & _); rewrite E, bytes_eqb_refl in E2; discriminate]].
  destruct (process_transition P pre_inner_state input) as [post_state step_output].
  cbn [fst snd negb].
  destruct (check_export_state_structure (extract_export_state P step_output)).
  - split.
    + intros Hs. injection Hs as <-. repeat split; assumption.
    + intros (_ & _ & _ & ->). reflexivity.
  - split; [discriminate|intros (_ & _ & Hc & _); discriminate].
Qed.

(** X14 ([verify_and_chain_transition]): the error reports the first failing check, in
    order: the inclusion proof, the step proof, the previous recursive proof, the chaining. *)
Theorem verify_and_chain_error_order (crypto_verify : Z -> bytes -> bytes -> bytes -> bool)
    (input : MohoRecursiveInput) :
  let step := incremental_step_proof input in
  let root_ok :=
    bytes_eqb (compute_root_no_prefix (step_predicate_merkle_proof input)
                                      (predicate_root (step_predicate input)))
              (commitment (from_state (transition step))) in
  (root_ok = false ->
     verify_and_chain_transition crypto_verify input = Err InvalidMerkleProof) /\
  (root_ok = true -> tw_verify crypto_verify step (step_predicate input) <> Ok tt ->
     verify_and_chain_transition crypto_verify input =
     Err (InvalidIncrementalProof (transition step))) /\
  (forall p, root_ok = true -> tw_verify crypto_verify step (step_predicate input) = Ok tt ->
     prev_recursive_proof input = Some p ->
     tw_verify crypto_verify p (moho_predicate input) <> Ok tt ->
     verify_and_chain_transition crypto_verify input = Err (InvalidRecursiveProof (transition p))) /\
  (forall p, root_ok = true -> tw_verify crypto_verify step (step_predicate input) = Ok tt ->
     prev_recursive_proof input = Some p ->
     tw_verify crypto_verify p (moho_predicate input) = Ok tt ->
     att_eqb (to_state (transition p)) (from_state (transition step)) = false ->
     verify_and_chain_transition crypto_verify input =
     Err (InvalidMohoChain {| first_end_state := to_state (transition p);
                              second_start_state := from_state (transition step) |})).
Proof.
  intros step root_ok.
  assert (Htw : forall tw k, tw_verify crypto_verify tw k <> Ok tt ->
            tw_verify crypto_verify tw k = Err (transition tw)).
  { intros tw k. unfold tw_verify. destruct (verify_claim_witness _ _ _ _); congruence. }
  unfold verify_and_chain_transition. fold step. fold root_ok.
  repeat split.
  - intros Hr. rewrite Hr. reflexivity.
  - intros Hr Hs. rewrite Hr, (Htw _ _ Hs). reflexivity.
  - intros p Hr Hs Hp Hq. rewrite Hr, Hs, Hp, (Htw _ _ Hq). reflexivity.
  - intros p Hr Hs Hp Hq Hc. rewrite Hr, Hs, Hp, Hq. unfold chain. rewrite Hc. reflexivity.
Qed.

(** X15 ([Transition::is_no_op], [Transition::chain]): chaining with a no-op transition on
    either side returns the other transition, exactly when the shared state matches. *)
Theorem chain_no_op_identity (t0 t : MohoStateTransition) :
  is_no_op att_eqb t0 = true ->
  (chain att_eqb t0 t = Ok t <-> from_state t = from_state t0) /\
  (chain att_eqb t t0 = Ok t <-> to_state t = to_state t0).
Proof.
  intros Hn. unfold is_no_op in Hn. apply att_eqb_eq in Hn.
  destruct t0 as [a a'], t as [b c]; cbn in *. subst a'. unfold chain; cbn.
  split.
  - destruct (att_eqb a b) eqn:E.
    + apply att_eqb_eq in E. subst b. split; reflexivity.
    + apply att_eqb_neq in E. split; [discriminate|]. intros ->. contradiction.
  - destruct (att_eqb c a) eqn:E.
    + apply att_eqb_eq in E. subst c. split; reflexivity.
    + apply att_eqb_neq in E. split; [discriminate|]. intros ->. contradiction.
Qed.

Lemma chain_no_op_identity_witness :
  let a := {| reference := zero_chunk; commitment := zero_chunk |} in
  let b := {| reference := zero_chunk; commitment := repeat 1 32 |} in
  let t0 := {| from_state := a; to_state := a |} in
  let t := {| from_state := a; to_state := b |} in
  is_no_op att_eqb t0 = true /\
  ((chain att_eqb t0 t = Ok t <-> from_state t = from_state t0) /\
   (chain att_eqb t t0 = Ok t <-> to_state t = to_state t0)).
Proof.
  intros a b t0 t. split; [reflexivity|]. apply chain_no_op_identity. reflexivity.
Defined.
